(** * Game state machine of the bird game (src/src/main.ts, final version)

    Shallow embedding of the fold of [state$], of the obstacle manager
    [animatePipes] (create, reset, advance, collision test) and of the ghost
    hand-off of [GhostManager].  Positions and velocities are TypeScript
    numbers; every value the program produces is rational (pipe speed 2.5,
    random gap offsets), so they are modelled as [Q].  Lives and score only
    ever hold integers and are modelled as [Z].

    The mutable data shared between the fold and the obstacle interval
    (the [activePipes] array, the [currentRun] trail, the ghosts spawned so
    far and the source of [Math.random]) is an explicit [World] that every
    operation threads. *)

From Stdlib Require Import QArith ZArith List Bool Streams Lia Lqa Sorting.
Import ListNotations.

Open Scope Q_scope.

(** Strict comparison on [Q] as a boolean, as the source's [<]. *)
Definition Qltb (a b : Q) : bool := negb (Qle_bool b a).

(** ** Constants *)

Module Viewport.
Definition CANVAS_WIDTH : Q := 600.
Definition CANVAS_HEIGHT : Q := 400.
End Viewport.

Module Birb.
Definition WIDTH : Q := 42.
Definition HEIGHT : Q := 30.
End Birb.

Module Constants.
Definition PIPE_WIDTH : Q := 50.
End Constants.

Definition GAP_HEIGHT : Q := 100.
Definition PIPE_SPEED : Q := 2.5.
Definition SPAWN_THRESHOLD : Q := 0.7 * Viewport.CANVAS_WIDTH.

(** ** Data model *)

(** [type State]: gameEnd, birdY, vy, lives, score. *)
Record State := mkState {
  gameEnd : bool;
  birdY : Q;
  vy : Q;
  lives : Z;
  score : Z
}.

(** [initialState] and [initialBirdState = { ...initialState, birdY: 200, vy: 0 }]. *)
Definition initialState : State :=
  {| gameEnd := false; birdY := 200; vy := 0; lives := 3%Z; score := 0%Z |}.

Definition initialBirdState : State :=
  {| gameEnd := gameEnd initialState; birdY := 200; vy := 0;
     lives := lives initialState; score := score initialState |}.

(** [type Pipe]; the optional [passed] flag is [undefined] (falsy) at
    creation, modelled as [false]. *)
Record Pipe := mkPipe {
  x : Q;
  gapY : Q;
  pipeGapHeight : Q;
  passed : bool
}.

Definition set_x (nx : Q) (p : Pipe) : Pipe :=
  {| x := nx; gapY := gapY p; pipeGapHeight := pipeGapHeight p; passed := passed p |}.

Definition mark_passed (p : Pipe) : Pipe :=
  {| x := x p; gapY := gapY p; pipeGapHeight := pipeGapHeight p; passed := true |}.

(** The shared mutable store: the [activePipes] array of [animatePipes],
    the [currentRun] trail of [state$], the trails handed to
    [GhostManager.spawnGhost] (in call order), and the values that
    successive calls of [Math.random] return. *)
Record World := mkWorld {
  activePipes : list Pipe;
  currentRun : list Q;
  ghostLog : list (list Q);
  rng : Stream Q
}.

Definition set_pipes (ps : list Pipe) (w : World) : World :=
  {| activePipes := ps; currentRun := currentRun w; ghostLog := ghostLog w; rng := rng w |}.

Definition set_run (run : list Q) (w : World) : World :=
  {| activePipes := activePipes w; currentRun := run; ghostLog := ghostLog w; rng := rng w |}.

(** [currentRun.push(y)] *)
Definition push_run (y : Q) (w : World) : World := set_run (currentRun w ++ [y]) w.

(** [ghostManager.spawnGhost([...currentRun])]: the ghost receives a copy. *)
Definition spawnGhost (w : World) : World :=
  {| activePipes := activePipes w; currentRun := currentRun w;
     ghostLog := ghostLog w ++ [currentRun w]; rng := rng w |}.

(** ** Obstacle manager ([animatePipes]) *)

(** The pipe built by [createPipe] from the random draw [r] in [0,1). *)
Definition newPipe (r : Q) : Pipe :=
  let minGapY := 20 in
  let maxGapY := Viewport.CANVAS_HEIGHT - GAP_HEIGHT - 20 in
  let g := minGapY + r * (maxGapY - minGapY) in
  {| x := Viewport.CANVAS_WIDTH; gapY := g; pipeGapHeight := GAP_HEIGHT; passed := false |}.

(** [createPipe]: draws [Math.random()] and pushes the new pipe. *)
Definition createPipe (w : World) : World :=
  {| activePipes := activePipes w ++ [newPipe (hd (rng w))];
     currentRun := currentRun w; ghostLog := ghostLog w; rng := tl (rng w) |}.

(** [resetPipes]: remove every pipe (when there are any) and spawn one. *)
Definition resetPipes (w : World) : World :=
  if (0 <? length (activePipes w))%nat
  then createPipe (set_pipes [] w)
  else createPipe w.

Inductive Collision := Top | Bottom.

(** [isColliding(birdY, pipe)] *)
Definition isColliding (bY : Q) (pipe : Pipe) : option Collision :=
  let birdTop := bY in
  let birdBottom := bY + Birb.HEIGHT in
  let birdLeft := Viewport.CANVAS_WIDTH * 0.3 in
  let birdRight := birdLeft + Birb.WIDTH in
  let withinPipeX :=
    if Qltb (x pipe) birdRight
    then (if Qltb birdLeft (x pipe + Constants.PIPE_WIDTH) then true else false)
    else false in
  if negb withinPipeX then None
  else if Qltb birdTop (gapY pipe) then Some Top
  else if Qltb (gapY pipe + pipeGapHeight pipe) birdBottom then Some Bottom
  else None.

(** One pass of the obstacle interval over [activePipes], iterating from the
    last pipe to the first: move left by [PIPE_SPEED], drop the pipe when it
    is fully off screen ([activePipes.splice(i, 1)]). *)
Definition movePipes (ps : list Pipe) : list Pipe :=
  fold_right
    (fun p acc =>
       let p' := set_x (x p - PIPE_SPEED) p in
       if Qltb 0 (x p' + Constants.PIPE_WIDTH) then p' :: acc else acc)
    [] ps.

Definition last_pipe (ps : list Pipe) : option Pipe :=
  match rev ps with
  | [] => None
  | p :: _ => Some p
  end.

(** The body of [interval(TICK_RATE_MS / 2).subscribe(...)]; [livesText] is
    the number parsed back from the rendered "Lives: n" text. *)
Definition advancePipes (livesText : Z) (w : World) : World :=
  if (livesText <=? 0)%Z then w
  else
    let w1 := set_pipes (movePipes (activePipes w)) w in
    match last_pipe (activePipes w1) with
    | None => createPipe w1
    | Some lp => if Qltb (x lp) SPAWN_THRESHOLD then createPipe w1 else w1
    end.

(** ** Game state machine (the [scan] callback of [state$]) *)

Inductive Event :=
| Flap (v : Q)
| Gravity (v : Q)
| Restart.

(** The events the merged stream emits: Space gives [-12], the gravity
    interval gives [2], R gives a restart. *)
Definition flapEvent : Event := Flap (-12).
Definition gravityEvent : Event := Gravity 2.

(** Outcome of [for (const { pipe } of activePipes)]: either a collision
    (with the score accumulated before it) or the end of the loop with the
    score and the pipes whose [passed] flag may have been set. *)
Inductive LoopResult :=
| Collided (sc : Z)
| Done (sc : Z) (ps : list Pipe).

(** The right edge test of the scoring branch. *)
Definition cleared (p : Pipe) : bool :=
  Qltb (x p + Constants.PIPE_WIDTH) (Viewport.CANVAS_WIDTH * 0.3).

Fixpoint pipeLoop (newBirdY : Q) (sc : Z) (ps : list Pipe) : LoopResult :=
  match ps with
  | [] => Done sc []
  | p :: rest =>
      match isColliding newBirdY p with
      | Some _ => Collided sc
      | None =>
          let '(sc1, p1) :=
            if negb (passed p) && cleared p then ((sc + 1)%Z, mark_passed p)
            else (sc, p) in
          match pipeLoop newBirdY sc1 rest with
          | Collided s => Collided s
          | Done s ps' => Done s (p1 :: ps')
          end
      end
  end.

(** [if (currentRun.length > 0 && lives > 1) { spawnGhost([...currentRun]); currentRun = []; }] *)
Definition ghostHandoff (l : Z) (w : World) : World :=
  if (0 <? length (currentRun w))%nat && (1 <? l)%Z
  then set_run [] (spawnGhost w)
  else w.

(** The boundary test on the tentative position. *)
Definition outOfBounds (bY : Q) : bool :=
  Qltb bY 0 || Qltb Viewport.CANVAS_HEIGHT (bY + Birb.HEIGHT).

(** The new velocity: replaced on a flap, increased on gravity. *)
Definition newVy (st : State) (ev : Event) : Q :=
  match ev with
  | Flap v => v
  | Gravity v => vy st + v
  | Restart => vy st
  end.

(** One step of the fold: [(state, event) => next state], with its effect on
    the shared world. *)
Definition step (w : World) (st : State) (ev : Event) : State * World :=
  match ev with
  | Restart => (initialBirdState, resetPipes (set_run [] w))
  | _ =>
    if gameEnd st then (st, w) else
    let v := newVy st ev in
    let bY := birdY st + v in
    let '(l1, nY, e1, w1) :=
      if outOfBounds bY then
        let wg := ghostHandoff (lives st) w in
        let l := (lives st - 1)%Z in
        (l, 200, (l <=? 0)%Z, resetPipes wg)
      else (lives st, bY, (lives st <=? 0)%Z, w) in
    match pipeLoop nY (score st) (activePipes w1) with
    | Collided sc =>
        let wg := ghostHandoff l1 w1 in
        let l := (l1 - 1)%Z in
        let e := if (l <=? 0)%Z then true else e1 in
        ({| gameEnd := e; birdY := 200; vy := 0; lives := l; score := sc |},
         resetPipes wg)
    | Done sc ps =>
        ({| gameEnd := e1; birdY := nY; vy := v; lives := l1; score := sc |},
         push_run nY (set_pipes ps w1))
    end
  end.

(** The fold over a sequence of events. *)
Fixpoint run (w : World) (st : State) (evs : list Event) : State * World :=
  match evs with
  | [] => (st, w)
  | ev :: rest => let '(st', w') := step w st ev in run w' st' rest
  end.

(** The world right after [animatePipes] spawned its first pipe. *)
Definition initWorld (r : Stream Q) : World :=
  createPipe {| activePipes := []; currentRun := []; ghostLog := []; rng := r |}.

(** States and worlds reachable from the start: fold steps on any event and
    passes of the obstacle interval, interleaved arbitrarily. *)
Inductive reachable : State -> World -> Prop :=
| reach_init r : reachable initialBirdState (initWorld r)
| reach_step st w ev :
    reachable st w -> reachable (fst (step w st ev)) (snd (step w st ev))
| reach_advance st w l :
    reachable st w -> reachable st (advancePipes l w).

CoFixpoint constStream (q : Q) : Stream Q := Cons q (constStream q).

(** ** Ghost playback ([GhostManager.spawnGhost]) *)

(** One ghost: its copy of the trail, the [index] of its timer, the
    displayed [y] attribute (the text of [runPositions[i]]; [None] stands
    for [undefined]) and whether its image and interval are still live. *)
Record Ghost := mkGhost {
  runPositions : list Q;
  index : nat;
  ghostY : option Q;
  ghostLive : bool
}.

(** The ghost image as created: [y] is [runPositions[0]], [index = 0]. *)
Definition newGhost (positions : list Q) : Ghost :=
  {| runPositions := positions; index := 0;
     ghostY := nth_error positions 0; ghostLive := true |}.

(** One firing of the ghost's [setInterval] callback.  Once the interval is
    cleared the callback never fires again, modelled as a no-op. *)
Definition ghostTick (g : Ghost) : Ghost :=
  if negb (ghostLive g) then g
  else if (length (runPositions g) <=? index g)%nat
  then {| runPositions := runPositions g; index := index g;
          ghostY := ghostY g; ghostLive := false |}
  else {| runPositions := runPositions g; index := S (index g);
          ghostY := nth_error (runPositions g) (index g); ghostLive := true |}.

Fixpoint ghostTicks (n : nat) (g : Ghost) : Ghost :=
  match n with
  | O => g
  | S k => ghostTicks k (ghostTick g)
  end.

(** The [y] values the ghost image shows, one per firing while it is live. *)
Fixpoint ghostTrace (n : nat) (g : Ghost) : list (option Q) :=
  match n with
  | O => []
  | S k =>
      let g' := ghostTick g in
      if ghostLive g' then ghostY g' :: ghostTrace k g' else []
  end.

(** ** Obstacle layout *)

(** The minimal horizontal distance between consecutive pipes that the
    spawn rule creates: a pipe is spawned at [CANVAS_WIDTH] only once the
    last one is left of [SPAWN_THRESHOLD]. *)
Definition SPACING : Q := Viewport.CANVAS_WIDTH - SPAWN_THRESHOLD.

Definition spacedX (a b : Q) : Prop := a + SPACING < b.

(** Pipes in array order lie left to right, more than [SPACING] apart. *)
Definition pipesSpaced (ps : list Pipe) : Prop :=
  Sorted.StronglySorted spacedX (List.map x ps).

(** The horizontal test of [isColliding]. *)
Definition overlapsBird (p : Pipe) : bool :=
  Qltb (x p) (Viewport.CANVAS_WIDTH * 0.3 + Birb.WIDTH) &&
  Qltb (Viewport.CANVAS_WIDTH * 0.3) (x p + Constants.PIPE_WIDTH).

(** ** Basic facts *)

Lemma Qltb_false (a b : Q) : Qltb a b = false <-> b <= a.
Proof.
  unfold Qltb. rewrite <- Qle_bool_iff. destruct (Qle_bool b a); simpl; split; congruence.
Qed.

Lemma Qltb_true (a b : Q) : Qltb a b = true <-> a < b.
Proof.
  unfold Qltb. split.
  - intros H. apply Qnot_le_lt. intros Hle. apply Qle_bool_iff in Hle.
    rewrite Hle in H. discriminate.
  - intros H. destruct (Qle_bool b a) eqn:E; [|reflexivity].
    apply Qle_bool_iff in E. exfalso. apply (Qlt_not_le a b); assumption.
Qed.

Lemma world_eta (w : World) : set_pipes (activePipes w) w = w.
Proof. destruct w; reflexivity. Qed.

(** A freshly created pipe stands at the right edge: it neither touches the
    bird nor counts as cleared. *)
Lemma newPipe_no_collision (y r : Q) : isColliding y (newPipe r) = None.
Proof. reflexivity. Qed.

Lemma newPipe_not_cleared (r : Q) : cleared (newPipe r) = false.
Proof. reflexivity. Qed.

Lemma resetPipes_pipes (w : World) :
  activePipes (resetPipes w) = [newPipe (hd (rng w))].
Proof.
  destruct w as [ps run gl r]. destruct ps; reflexivity.
Qed.

Lemma resetPipes_run (w : World) : currentRun (resetPipes w) = currentRun w.
Proof. unfold resetPipes. destruct (0 <? _)%nat; reflexivity. Qed.

Lemma resetPipes_ghosts (w : World) : ghostLog (resetPipes w) = ghostLog w.
Proof. unfold resetPipes. destruct (0 <? _)%nat; reflexivity. Qed.

Lemma resetPipes_rng (w : World) : rng (resetPipes w) = tl (rng w).
Proof. unfold resetPipes. destruct (0 <? _)%nat; reflexivity. Qed.

Lemma pipeLoop_reset (y : Q) (sc : Z) (w : World) :
  pipeLoop y sc (activePipes (resetPipes w)) = Done sc (activePipes (resetPipes w)).
Proof. rewrite resetPipes_pipes. reflexivity. Qed.

Create Rewrite HintDb world.

#[export] Hint Rewrite resetPipes_pipes resetPipes_run resetPipes_ghosts resetPipes_rng
  : world.

(** ** The shape of one fold step *)

Definition NotRestart (ev : Event) : Prop := ev <> Restart.

Lemma step_restart (w : World) (st : State) :
  step w st Restart = (initialBirdState, resetPipes (set_run [] w)).
Proof. reflexivity. Qed.

Lemma step_ended (w : World) (st : State) (ev : Event) :
  NotRestart ev -> gameEnd st = true -> step w st ev = (st, w).
Proof.
  intros Hev He. destruct ev; [| |congruence]; simpl; rewrite He; reflexivity.
Qed.

(** Boundary collision: one life lost, bird back to 200, the velocity kept,
    pipes reset, and the scan that follows sees only the fresh pipe. *)
Lemma step_boundary (w : World) (st : State) (ev : Event) :
  NotRestart ev -> gameEnd st = false ->
  outOfBounds (birdY st + newVy st ev) = true ->
  step w st ev =
    ({| gameEnd := (lives st - 1 <=? 0)%Z; birdY := 200; vy := newVy st ev;
        lives := (lives st - 1)%Z; score := score st |},
     push_run 200 (resetPipes (ghostHandoff (lives st) w))).
Proof.
  intros Hev He Hb. destruct ev; [| |congruence]; simpl; rewrite He;
    simpl in Hb; rewrite Hb; rewrite pipeLoop_reset, world_eta; reflexivity.
Qed.

(** Obstacle collision without a boundary collision. *)
Lemma step_hit (w : World) (st : State) (ev : Event) (sc : Z) :
  NotRestart ev -> gameEnd st = false ->
  outOfBounds (birdY st + newVy st ev) = false ->
  pipeLoop (birdY st + newVy st ev) (score st) (activePipes w) = Collided sc ->
  step w st ev =
    ({| gameEnd := if (lives st - 1 <=? 0)%Z then true else (lives st <=? 0)%Z;
        birdY := 200; vy := 0; lives := (lives st - 1)%Z; score := sc |},
     resetPipes (ghostHandoff (lives st) w)).
Proof.
  intros Hev He Hb Hl. destruct ev; [| |congruence]; simpl; rewrite He;
    simpl in Hb, Hl; rewrite Hb; rewrite Hl; reflexivity.
Qed.

(** No collision at all. *)
Lemma step_clear (w : World) (st : State) (ev : Event) (sc : Z) (ps : list Pipe) :
  NotRestart ev -> gameEnd st = false ->
  outOfBounds (birdY st + newVy st ev) = false ->
  pipeLoop (birdY st + newVy st ev) (score st) (activePipes w) = Done sc ps ->
  step w st ev =
    ({| gameEnd := (lives st <=? 0)%Z; birdY := birdY st + newVy st ev;
        vy := newVy st ev; lives := lives st; score := sc |},
     push_run (birdY st + newVy st ev) (set_pipes ps w)).
Proof.
  intros Hev He Hb Hl. destruct ev; [| |congruence]; simpl; rewrite He;
    simpl in Hb, Hl; rewrite Hb; rewrite Hl; reflexivity.
Qed.

Lemma pipeLoop_score_mono (y : Q) (sc : Z) (ps : list Pipe) :
  match pipeLoop y sc ps with
  | Collided s => (sc <= s)%Z
  | Done s _ => (sc <= s)%Z
  end.
Proof.
  revert sc. induction ps as [|p ps IH]; intros sc; simpl; [lia|].
  destruct (isColliding y p); [lia|].
  destruct (negb (passed p) && cleared p).
  - specialize (IH (sc + 1)%Z). destruct (pipeLoop y (sc + 1) ps); lia.
  - specialize (IH sc). destruct (pipeLoop y sc ps); lia.
Qed.

(** The invariant of the reachable states. *)
Definition lives_score_inv (st : State) : Prop :=
  (gameEnd st = true <-> (lives st <= 0)%Z) /\ (0 <= lives st)%Z /\ (0 <= score st)%Z.

Definition bird_in_view (st : State) : Prop :=
  0 <= birdY st /\ birdY st + Birb.HEIGHT <= Viewport.CANVAS_HEIGHT.

Lemma outOfBounds_false (y : Q) :
  outOfBounds y = false -> 0 <= y /\ y + Birb.HEIGHT <= Viewport.CANVAS_HEIGHT.
Proof.
  unfold outOfBounds. intros H. apply orb_false_iff in H as [H1 H2].
  apply Qltb_false in H1, H2. split; assumption.
Qed.

Ltac not_restart := unfold NotRestart; discriminate.

Ltac step_cases w st ev :=
  let Hb := fresh "Hb" in
  let Hl := fresh "Hl" in
  destruct (outOfBounds (birdY st + newVy st ev)) eqn:Hb;
  [ | destruct (pipeLoop (birdY st + newVy st ev) (score st) (activePipes w)) eqn:Hl ].

(** Does the scoring branch fire for this pipe? *)
Definition scores (p : Pipe) : bool := negb (passed p) && cleared p.

Definition scoreMark (p : Pipe) : Pipe := if scores p then mark_passed p else p.

Lemma pipeLoop_no_hit (y : Q) (ps : list Pipe) :
  Forall (fun p => isColliding y p = None) ps ->
  forall sc, pipeLoop y sc ps =
             Done (sc + Z.of_nat (length (filter scores ps)))%Z (List.map scoreMark ps).
Proof.
  induction 1 as [|p ps Hp _ IH]; intros sc; simpl; [f_equal; lia|].
  rewrite Hp. unfold scoreMark, scores at 1. fold (scores p).
  destruct (scores p) eqn:Es; simpl; rewrite IH; f_equal; simpl; lia.
Qed.

Lemma scoreMark_done (p : Pipe) : scores (scoreMark p) = false.
Proof.
  unfold scoreMark. destruct (scores p) eqn:E; [reflexivity | exact E].
Qed.

Lemma pipeLoop_quiet (y : Q) (ps : list Pipe) (sc : Z) :
  Forall (fun p => isColliding y p = None /\ scores p = false) ps ->
  pipeLoop y sc ps = Done sc ps.
Proof.
  intros H. induction H as [|p ps [Hc Hs] _ IH]; [reflexivity|].
  simpl. rewrite Hc. fold (scores p). rewrite Hs, IH. reflexivity.
Qed.

Lemma ghostHandoff_spec (l : Z) (w : World) :
  ((0 < length (currentRun w))%nat /\ (1 < l)%Z ->
     ghostHandoff l w = set_run [] (spawnGhost w)) /\
  (~ ((0 < length (currentRun w))%nat /\ (1 < l)%Z) -> ghostHandoff l w = w).
Proof.
  unfold ghostHandoff.
  destruct (Nat.ltb_spec 0 (length (currentRun w)));
    destruct (Z.ltb_spec 1 l); simpl; split; intros H';
    solve [reflexivity | exfalso; apply H'; split; assumption
          | destruct H'; lia].
Qed.

(** The scan stops at the first colliding pipe and keeps the points
    scored before it. *)
Lemma pipeLoop_first_hit (y : Q) (pre post : list Pipe) (p : Pipe) (sc : Z) :
  Forall (fun q => isColliding y q = None) pre -> isColliding y p <> None ->
  pipeLoop y sc (pre ++ p :: post) =
  Collided (sc + Z.of_nat (length (filter scores pre)))%Z.
Proof.
  intros Hpre Hp. revert sc.
  induction Hpre as [|q pre Hq _ IH]; intros sc.
  - simpl. destruct (isColliding y p); [|congruence]. f_equal. lia.
  - cbn [app pipeLoop]. rewrite Hq. fold (scores q).
    destruct (scores q) eqn:Es; cbn [filter]; rewrite Es;
      rewrite IH; f_equal; cbn [length]; lia.
Qed.

Lemma ghostHandoff_rng (l : Z) (w : World) : rng (ghostHandoff l w) = rng w.
Proof. unfold ghostHandoff. destruct (_ && _); reflexivity. Qed.

(** Concrete inputs used by the witnesses and the counterexamples. *)
Definition demoWorld : World := initWorld (constStream 0.5).

(** A bird close to the top edge, at rest, with all its lives. *)
Definition nearTop : State :=
  {| gameEnd := false; birdY := 5; vy := 0; lives := 3%Z; score := 0%Z |}.

(** A bird falling fast near the bottom edge. *)
Definition nearBottom : State :=
  {| gameEnd := false; birdY := 365; vy := 10; lives := 3%Z; score := 0%Z |}.

(** A pipe the bird has already left behind but not yet scored. *)
Definition behindPipe : Pipe :=
  {| x := 100; gapY := 150; pipeGapHeight := 100; passed := false |}.

Definition behindWorld : World :=
  {| activePipes := [behindPipe]; currentRun := [];
     ghostLog := []; rng := constStream 0.5 |}.

(** The same bird with a recorded trail of two samples. *)
Definition trailWorld : World := set_run [190; 195] demoWorld.

(** A pipe overlapping the bird whose gap lies below it. *)
Definition lowGapPipe : Pipe :=
  {| x := 150; gapY := 300; pipeGapHeight := 100; passed := false |}.

(** A cleared, unscored pipe followed by one the bird is about to hit. *)
Definition hitWorld : World :=
  {| activePipes := [behindPipe; lowGapPipe]; currentRun := [];
     ghostLog := []; rng := constStream 0.5 |}.

Definition endedState : State :=
  {| gameEnd := true; birdY := 200; vy := 0; lives := 0%Z; score := 4%Z |}.

(* ================================================================== *)
(** ** Claims *)

(** C1: a restart event, from any prior state (ended or not), yields
    exactly the initial state (lives 3, score 0, birdY 200, velocity 0, not
    ended), empties the run trail and leaves exactly one freshly spawned
    obstacle. *)
Theorem restart_resets_everything (w : World) (st : State) :
  let '(st', w') := step w st Restart in
  st' = initialBirdState /\
  st' = {| gameEnd := false; birdY := 200; vy := 0; lives := 3%Z; score := 0%Z |} /\
  currentRun w' = [] /\
  activePipes w' = [newPipe (hd (rng w))].
Proof.
  rewrite step_restart. autorewrite with world. repeat split.
Qed.

(** C2: in every reachable state, [gameEnd] holds exactly when
    [lives <= 0], and lives and score are never negative. *)
Theorem reachable_lives_score_inv :
  forall (st : State) (w : World), reachable st w -> lives_score_inv st.
Proof.
  unfold lives_score_inv. intros st0 w0 H. induction H as [r | st w ev Hr IH | st w l Hr IH].
  - simpl. split; [split; [discriminate | lia] | lia].
  - destruct IH as [[Hend1 Hend2] [Hl0 Hs0]].
    destruct ev as [v | v | ]; [ | | rewrite step_restart; simpl; split; [split; [discriminate|lia]|lia] ].
    all: destruct (gameEnd st) eqn:He;
      [ rewrite step_ended by first [assumption | not_restart]; simpl; rewrite He; tauto | ].
    all: assert (Hpos : (1 <= lives st)%Z)
           by (destruct (Z_le_gt_dec (lives st) 0) as [Hle|]; [apply Hend2 in Hle; congruence | lia]).
    all: match goal with |- context [step ?w ?st ?e] =>
           step_cases w st e;
           [ rewrite step_boundary by first [assumption | not_restart]
           | rewrite (step_hit w st e _ ltac:(not_restart) He Hb Hl)
           | rewrite (step_clear w st e _ _ ltac:(not_restart) He Hb Hl) ];
           simpl;
           pose proof (pipeLoop_score_mono (birdY st + newVy st e) (score st) (activePipes w)) as Hm
         end.
    all: try rewrite Hl in Hm.
    all: repeat split; try lia.
    all: repeat match goal with
         | |- context [(?a <=? ?b)%Z] => destruct (Z.leb_spec a b)
         end; try discriminate; try lia; try reflexivity.
  - exact IH.
Qed.

(** C3: on a step of a flap or gravity event from a non-ended state, the
    boundary test comes first: a boundary collision costs exactly one life
    (whatever the obstacles), otherwise an obstacle collision found by the
    scan costs exactly one life, and a step with neither keeps the lives; in
    all cases lives drop by at most one. *)
Theorem one_life_per_step (w : World) (st : State) (ev : Event) :
  NotRestart ev -> gameEnd st = false ->
  let bY := birdY st + newVy st ev in
  let '(st', _) := step w st ev in
  (outOfBounds bY = true -> lives st' = (lives st - 1)%Z) /\
  (outOfBounds bY = false ->
     (exists sc, pipeLoop bY (score st) (activePipes w) = Collided sc) ->
     lives st' = (lives st - 1)%Z) /\
  (outOfBounds bY = false ->
     (forall sc, pipeLoop bY (score st) (activePipes w) <> Collided sc) ->
     lives st' = lives st) /\
  (lives st - 1 <= lives st' <= lives st)%Z.
Proof.
  intros Hev He bY. subst bY.
  step_cases w st ev.
  - rewrite step_boundary by assumption. simpl.
    split; [reflexivity|]. split; [congruence|]. split; [congruence|]. lia.
  - rewrite (step_hit _ _ _ _ Hev He Hb Hl). simpl.
    split; [congruence|]. split; [reflexivity|].
    split; [intros _ Hn; exfalso; apply (Hn sc); reflexivity|]. lia.
  - rewrite (step_clear _ _ _ _ _ Hev He Hb Hl). simpl.
    split; [congruence|]. split; [intros _ [sc' Hc]; congruence|].
    split; [reflexivity|]. lia.
Qed.

(** C5: while the game has ended, every flap or gravity event leaves the
    state and the whole world (obstacles, score, trail, ghosts) untouched,
    for any sequence of such events. *)
Theorem ended_freezes (w : World) (st : State) (evs : list Event) :
  gameEnd st = true -> Forall NotRestart evs -> run w st evs = (st, w).
Proof.
  intros He Hall. induction Hall as [|ev evs Hev _ IH]; [reflexivity|].
  simpl. rewrite step_ended by assumption. exact IH.
Qed.

(** C10: in every reachable state the bird lies inside the viewport:
    [0 <= birdY] and [birdY + 30 <= 400]. *)
Theorem reachable_bird_in_view :
  forall (st : State) (w : World), reachable st w -> bird_in_view st.
Proof.
  unfold bird_in_view. intros st0 w0 H. induction H as [r | st w ev Hr IH | st w l Hr IH].
  - unfold Qle; simpl; split; lia.
  - destruct ev as [v | v | ]; [ | | rewrite step_restart; unfold Qle; simpl; split; lia ].
    all: destruct (gameEnd st) eqn:He;
      [ rewrite step_ended by first [assumption | not_restart]; exact IH | ].
    all: match goal with |- context [step ?w ?st ?e] =>
           step_cases w st e;
           [ rewrite step_boundary by first [assumption | not_restart]
           | rewrite (step_hit w st e _ ltac:(not_restart) He Hb Hl)
           | rewrite (step_clear w st e _ _ ltac:(not_restart) He Hb Hl);
             simpl; apply outOfBounds_false; exact Hb ]
         end.
    all: unfold Qle; simpl; split; lia.
  - exact IH.
Qed.

(** C4 (the boundary branch keeps the velocity): from [nearTop] a flap
    takes the tentative position to [-7], above the top edge.  The step
    costs one life, puts the bird back at 200 and leaves a single fresh
    pipe, but the emitted velocity is the flap's [-12], not [0]: the
    boundary branch returns [vy] unchanged, while the obstacle branch
    returns [vy: 0]. *)
Theorem boundary_keeps_velocity :
  let '(st', w') := step demoWorld nearTop flapEvent in
  outOfBounds (birdY nearTop + newVy nearTop flapEvent) = true /\
  lives st' = 2%Z /\ birdY st' = 200 /\ vy st' = -12 /\
  activePipes w' = [newPipe 0.5].
Proof. vm_compute. repeat split. Qed.

(** C6 (counterexample): [behindPipe] lies left of the bird, so no pipe
    overlaps the bird, but it has been cleared and is not yet marked
    passed.  The gravity step from the initial state then scores it: the
    result has score 1, not 0. *)
Lemma gravity_scores_cleared_pipe :
  let '(s1, _) := step behindWorld initialBirdState (Gravity 2) in
  Forall (fun p => overlapsBird p = false) (activePipes behindWorld) /\
  s1 = {| gameEnd := false; birdY := 202; vy := 2; lives := 3%Z; score := 1%Z |}.
Proof. vm_compute. split; [repeat constructor | reflexivity]. Qed.

(** C6 (as amended): from the initial state, when no obstacle collides
    with the bird at 202 or at 190 (in particular when none overlaps it)
    and none is cleared but not yet marked passed, a gravity event of [+2]
    gives [{birdY 202, vy 2, lives 3, score 0, not ended}] and a following
    flap of [-12] replaces the velocity: [vy = -12], [birdY = 190]. *)
Theorem gravity_then_flap (w : World) :
  Forall (fun p => isColliding 202 p = None /\ isColliding 190 p = None /\
                   scores p = false) (activePipes w) ->
  let '(s1, w1) := step w initialBirdState (Gravity 2) in
  s1 = {| gameEnd := false; birdY := 202; vy := 2; lives := 3%Z; score := 0%Z |} /\
  let '(s2, _) := step w1 s1 (Flap (-12)) in
  vy s2 = -12 /\ birdY s2 = 190.
Proof.
  intros H.
  assert (H202 : Forall (fun p => isColliding 202 p = None /\ scores p = false) (activePipes w))
    by (eapply Forall_impl; [|exact H]; intros p [A [_ C]]; split; assumption).
  assert (H190 : Forall (fun p => isColliding 190 p = None /\ scores p = false) (activePipes w))
    by (eapply Forall_impl; [|exact H]; intros p [_ [B C]]; split; assumption).
  rewrite (step_clear w initialBirdState (Gravity 2) 0%Z (activePipes w)
             ltac:(not_restart) eq_refl eq_refl (pipeLoop_quiet 202 _ 0%Z H202)).
  split; [reflexivity|].
  match goal with |- context [step ?w1 ?s1 (Flap (-12))] =>
    rewrite (step_clear w1 s1 (Flap (-12)) 0%Z (activePipes w)
               ltac:(not_restart) eq_refl eq_refl (pipeLoop_quiet 190 _ 0%Z H190))
  end.
  split; reflexivity.
Qed.

(** C7 (counterexample): [behindPipe] has been cleared by the bird and is
    not marked passed, yet the gravity step from [nearBottom] hits the
    bottom edge: the pipes are reset before the scan, so the score stays
    0 and the cleared pipe disappears without ever being scored. *)
Lemma cleared_pipe_lost_on_boundary :
  let '(st', w') := step behindWorld nearBottom gravityEvent in
  cleared behindPipe = true /\ passed behindPipe = false /\
  outOfBounds (birdY nearBottom + newVy nearBottom gravityEvent) = true /\
  score st' = score nearBottom /\ activePipes w' = [newPipe 0.5].
Proof. vm_compute. repeat split. Qed.

(** C7 (as amended): on a flap or gravity step from a non-ended state
    with no collision, the score grows by exactly the number of pipes not
    yet passed whose right edge the bird has cleared, exactly those are
    marked passed, and afterwards none of the pipes can be scored again.
    On an obstacle collision, the pipes before the first colliding one that
    are cleared and not yet passed are still scored, and the pipes are then
    reset to one fresh pipe.  On a boundary collision the pipes are reset to
    one fresh pipe before the scan and the score does not change, so a
    pipe cleared at that step disappears without being scored. *)
Theorem scoring_once_per_obstacle (w : World) (st : State) (ev : Event) :
  NotRestart ev -> gameEnd st = false ->
  let bY := birdY st + newVy st ev in
  let '(st', w') := step w st ev in
  (outOfBounds bY = false ->
   Forall (fun p => isColliding bY p = None) (activePipes w) ->
   score st' = (score st + Z.of_nat (length (filter scores (activePipes w))))%Z /\
   activePipes w' = List.map scoreMark (activePipes w) /\
   Forall (fun p => scores p = false) (activePipes w')) /\
  (outOfBounds bY = false ->
   forall pre p post, activePipes w = pre ++ p :: post ->
   Forall (fun q => isColliding bY q = None) pre -> isColliding bY p <> None ->
   score st' = (score st + Z.of_nat (length (filter scores pre)))%Z /\
   activePipes w' = [newPipe (hd (rng w))]) /\
  (outOfBounds bY = true ->
   score st' = score st /\ activePipes w' = [newPipe (hd (rng w))]).
Proof.
  intros Hev He bY. subst bY.
  destruct (outOfBounds (birdY st + newVy st ev)) eqn:Hb.
  - rewrite step_boundary by assumption. simpl.
    split; [intros Hf; discriminate Hf|]. split; [intros Hf; discriminate Hf|].
    intros _. split; [reflexivity|].
    rewrite resetPipes_pipes, ghostHandoff_rng. reflexivity.
  - destruct (step w st ev) as [st' w'] eqn:Hs.
    split; [|split; [|intros Hf; discriminate Hf]].
    + intros _ Hnc.
      rewrite (step_clear w st ev _ _ Hev He Hb (pipeLoop_no_hit _ _ Hnc _)) in Hs.
      injection Hs as <- <-. simpl. split; [reflexivity|]. split; [reflexivity|].
      apply Forall_forall. intros p Hin. apply in_map_iff in Hin as [q [<- _]].
      apply scoreMark_done.
    + intros _ pre p post Hw Hpre Hp.
      assert (Hl := pipeLoop_first_hit _ pre post p (score st) Hpre Hp).
      rewrite <- Hw in Hl.
      rewrite (step_hit w st ev _ Hev He Hb Hl) in Hs.
      injection Hs as <- <-. simpl. split; [reflexivity|].
      rewrite resetPipes_pipes, ghostHandoff_rng. reflexivity.
Qed.

(** C8: when a flap or gravity step from a non-ended state costs a life,
    a ghost is handed a copy of the trail exactly when the trail is
    non-empty and more than one life remained before the loss; the trail is
    then emptied (a boundary step afterwards records the reset position
    200, an obstacle step records nothing).  Otherwise, in particular on
    the game-ending loss, no ghost is spawned. *)
Theorem ghost_only_when_lives_remain (w : World) (st : State) (ev : Event) :
  NotRestart ev -> gameEnd st = false ->
  let bY := birdY st + newVy st ev in
  let '(st', w') := step w st ev in
  lives st' = (lives st - 1)%Z ->
  (((0 < length (currentRun w))%nat /\ (1 < lives st)%Z) ->
     ghostLog w' = ghostLog w ++ [currentRun w] /\
     currentRun w' = (if outOfBounds bY then [200] else [])) /\
  (~ ((0 < length (currentRun w))%nat /\ (1 < lives st)%Z) ->
     ghostLog w' = ghostLog w).
Proof.
  intros Hev He bY. subst bY.
  destruct (ghostHandoff_spec (lives st) w) as [G1 G2].
  step_cases w st ev.
  - rewrite step_boundary by assumption. simpl. intros _.
    autorewrite with world.
    split; intros C; [rewrite (G1 C) | rewrite (G2 C)]; simpl; autorewrite with world;
      simpl; [split|]; reflexivity.
  - rewrite (step_hit w st ev sc Hev He Hb Hl). simpl. intros _.
    autorewrite with world.
    split; intros C; [rewrite (G1 C) | rewrite (G2 C)]; simpl; [split|]; reflexivity.
  - rewrite (step_clear w st ev sc ps Hev He Hb Hl). simpl. intros Hl'. lia.
Qed.

(** C9 (counterexample): from [nearTop] a flap hits the top edge, and the
    step still pushes a sample (the reset position 200) onto the trail. *)
Lemma boundary_step_appends_sample :
  let '(_, w') := step demoWorld nearTop flapEvent in
  outOfBounds (birdY nearTop + newVy nearTop flapEvent) = true /\
  currentRun demoWorld = [] /\ currentRun w' = [200].
Proof. vm_compute. repeat split. Qed.

(** C9 (as amended): on a flap or gravity step from a non-ended state, an
    obstacle collision appends nothing to the trail (which is at most
    emptied by the ghost hand-off), a collision-free step appends the new
    [birdY], and a boundary collision appends the reset position 200 to the
    trail left by the ghost hand-off. *)
Theorem trail_sample_per_step (w : World) (st : State) (ev : Event) :
  NotRestart ev -> gameEnd st = false ->
  let bY := birdY st + newVy st ev in
  let '(st', w') := step w st ev in
  (outOfBounds bY = true ->
     currentRun w' = currentRun (ghostHandoff (lives st) w) ++ [200]) /\
  (outOfBounds bY = false ->
     forall sc, pipeLoop bY (score st) (activePipes w) = Collided sc ->
     currentRun w' = currentRun (ghostHandoff (lives st) w)) /\
  (outOfBounds bY = false ->
     forall sc ps, pipeLoop bY (score st) (activePipes w) = Done sc ps ->
     currentRun w' = currentRun w ++ [birdY st']).
Proof.
  intros Hev He bY. subst bY.
  step_cases w st ev.
  - rewrite step_boundary by assumption. simpl. autorewrite with world.
    split; [reflexivity|]. split; intros Hf; discriminate Hf.
  - rewrite (step_hit w st ev sc Hev He Hb Hl). simpl. autorewrite with world.
    split; [intros Hf; discriminate Hf|]. split; [reflexivity|].
    intros _ sc' ps' Hd. congruence.
  - rewrite (step_clear w st ev sc ps Hev He Hb Hl). simpl.
    split; [intros Hf; discriminate Hf|]. split; [|reflexivity].
    intros _ sc' Hc. congruence.
Qed.

(** ** Witnesses *)

Lemma reachable_lives_score_inv_witness :
  reachable (fst (step demoWorld initialBirdState gravityEvent))
            (snd (step demoWorld initialBirdState gravityEvent)) /\
  lives_score_inv (fst (step demoWorld initialBirdState gravityEvent)).
Proof.
  assert (R := reach_step _ _ gravityEvent (reach_init (constStream 0.5))).
  split; [exact R | exact (reachable_lives_score_inv _ _ R)].
Defined.

Lemma reachable_bird_in_view_witness :
  reachable (fst (step demoWorld initialBirdState flapEvent))
            (snd (step demoWorld initialBirdState flapEvent)) /\
  bird_in_view (fst (step demoWorld initialBirdState flapEvent)).
Proof.
  assert (R := reach_step _ _ flapEvent (reach_init (constStream 0.5))).
  split; [exact R | exact (reachable_bird_in_view _ _ R)].
Defined.

Lemma one_life_per_step_witness :
  NotRestart flapEvent /\ gameEnd nearTop = false /\
  lives (fst (step demoWorld nearTop flapEvent)) = 2%Z.
Proof.
  split; [not_restart|]. split; [reflexivity|].
  pose proof (one_life_per_step demoWorld nearTop flapEvent
                ltac:(not_restart) eq_refl) as H.
  vm_compute in H. destruct H as [H _]. vm_compute. apply H. reflexivity.
Defined.

Lemma ended_freezes_witness :
  gameEnd endedState = true /\
  Forall NotRestart [gravityEvent; flapEvent; gravityEvent] /\
  run demoWorld endedState [gravityEvent; flapEvent; gravityEvent] = (endedState, demoWorld).
Proof.
  assert (H1 : gameEnd endedState = true) by reflexivity.
  assert (H2 : Forall NotRestart [gravityEvent; flapEvent; gravityEvent])
    by (repeat constructor; not_restart).
  split; [exact H1|]. split; [exact H2|]. exact (ended_freezes _ _ _ H1 H2).
Defined.

Lemma gravity_then_flap_witness :
  Forall (fun p => isColliding 202 p = None /\ isColliding 190 p = None /\
                   scores p = false) (activePipes demoWorld) /\
  fst (step demoWorld initialBirdState (Gravity 2)) =
    {| gameEnd := false; birdY := 202; vy := 2; lives := 3%Z; score := 0%Z |}.
Proof.
  assert (H : Forall (fun p => isColliding 202 p = None /\ isColliding 190 p = None /\
                               scores p = false) (activePipes demoWorld))
    by (vm_compute; repeat constructor).
  split; [exact H|].
  pose proof (gravity_then_flap demoWorld H) as G.
  vm_compute in G. destruct G as [G _]. vm_compute. exact G.
Defined.

Lemma scoring_once_per_obstacle_witness :
  NotRestart gravityEvent /\ gameEnd initialBirdState = false /\
  score (fst (step hitWorld initialBirdState gravityEvent)) = 1%Z /\
  activePipes (snd (step hitWorld initialBirdState gravityEvent)) = [newPipe 0.5].
Proof.
  split; [not_restart|]. split; [reflexivity|].
  pose proof (scoring_once_per_obstacle hitWorld initialBirdState gravityEvent
                ltac:(not_restart) eq_refl) as H.
  vm_compute in H. destruct H as [_ [H _]].
  destruct (H eq_refl [behindPipe] lowGapPipe [] eq_refl
              ltac:(repeat constructor) ltac:(discriminate)) as [S P].
  vm_compute. split; [exact S | exact P].
Defined.

Lemma ghost_only_when_lives_remain_witness :
  NotRestart flapEvent /\ gameEnd nearTop = false /\
  ghostLog (snd (step trailWorld nearTop flapEvent)) = [[190; 195]].
Proof.
  split; [not_restart|]. split; [reflexivity|].
  pose proof (ghost_only_when_lives_remain trailWorld nearTop flapEvent
                ltac:(not_restart) eq_refl) as H.
  vm_compute in H. destruct (H eq_refl) as [H1 _].
  destruct (H1 ltac:(split; [repeat constructor | reflexivity])) as [G _].
  vm_compute. exact G.
Defined.

Lemma trail_sample_per_step_witness :
  NotRestart flapEvent /\ gameEnd nearTop = false /\
  currentRun (snd (step demoWorld nearTop flapEvent)) = [200].
Proof.
  split; [not_restart|]. split; [reflexivity|].
  pose proof (trail_sample_per_step demoWorld nearTop flapEvent
                ltac:(not_restart) eq_refl) as H.
  vm_compute in H. destruct H as [H _].
  vm_compute. exact (H eq_refl).
Defined.

Example test_gravity :
  fst (step (initWorld (constStream 0.5)) initialBirdState gravityEvent)
  = {| gameEnd := false; birdY := 202; vy := 2; lives := 3%Z; score := 0%Z |}.
Proof. vm_compute. reflexivity. Qed.

(* ================================================================== *)
(** ** Further properties of the code *)

(** [createPipe] draws the gap top as [20 + r * 260] with [Math.random()]
    in [0,1): the gap starts at least 20 below the top edge and ends more
    than 20 above the bottom edge. *)
Theorem newPipe_gap_in_margins (r : Q) :
  0 <= r -> r < 1 ->
  20 <= gapY (newPipe r) /\
  gapY (newPipe r) + pipeGapHeight (newPipe r) < Viewport.CANVAS_HEIGHT - 20.
Proof.
  intros H0 H1. unfold newPipe, Viewport.CANVAS_HEIGHT, GAP_HEIGHT; simpl. split; lra.
Qed.

(** The backwards loop of the obstacle interval, which splices out pipes as
    it goes, moves every pipe left by [PIPE_SPEED] and keeps, in their
    original order, exactly those still partly on screen. *)
Lemma movePipes_map_filter (ps : list Pipe) :
  movePipes ps =
  filter (fun p => Qltb 0 (x p + Constants.PIPE_WIDTH))
         (List.map (fun p => set_x (x p - PIPE_SPEED) p) ps).
Proof.
  unfold movePipes. induction ps as [|p ps IH]; [reflexivity|].
  cbn [fold_right List.map filter]. rewrite IH. reflexivity.
Qed.

Lemma last_pipe_app (ps : list Pipe) (p : Pipe) : last_pipe (ps ++ [p]) = Some p.
Proof. unfold last_pipe. rewrite rev_app_distr. reflexivity. Qed.

Lemma last_pipe_split (ps : list Pipe) (p : Pipe) :
  last_pipe ps = Some p -> exists pre, ps = pre ++ [p].
Proof.
  unfold last_pipe. intros H. destruct (rev ps) as [|q t] eqn:E; [discriminate|].
  injection H as <-. exists (rev t).
  rewrite <- (rev_involutive ps), E. reflexivity.
Qed.

Lemma movePipes_length (ps : list Pipe) : (length (movePipes ps) <= length ps)%nat.
Proof.
  rewrite movePipes_map_filter. rewrite <- (length_map (fun p => set_x (x p - PIPE_SPEED) p) ps).
  apply filter_length_le.
Qed.

(** While lives remain, one pass of the obstacle interval adds at most one
    pipe and always leaves a last pipe at or right of [SPAWN_THRESHOLD]:
    the set is never left empty and a new pipe follows as soon as the last
    one crosses the threshold. *)
Theorem advancePipes_spawn_rule (l : Z) (w : World) :
  (0 < l)%Z ->
  (length (activePipes (advancePipes l w)) <= S (length (activePipes w)))%nat /\
  exists lp, last_pipe (activePipes (advancePipes l w)) = Some lp /\
             SPAWN_THRESHOLD <= x lp.
Proof.
  intros Hl. unfold advancePipes.
  destruct (Z.leb_spec l 0) as [Hle|_]; [lia|].
  pose proof (movePipes_length (activePipes w)) as Hlen.
  unfold createPipe, set_pipes; simpl.
  destruct (last_pipe (movePipes (activePipes w))) as [lp|] eqn:L.
  - destruct (Qltb (x lp) SPAWN_THRESHOLD) eqn:T; simpl.
    + rewrite length_app, last_pipe_app. simpl. split; [lia|].
      eexists; split; [reflexivity|]. unfold SPAWN_THRESHOLD; simpl; unfold Viewport.CANVAS_WIDTH. lra.
    + split; [lia|]. exists lp. split; [exact L|]. apply Qltb_false in T. exact T.
  - simpl. rewrite length_app, last_pipe_app. simpl. split; [lia|].
    eexists; split; [reflexivity|]. unfold SPAWN_THRESHOLD; simpl; unfold Viewport.CANVAS_WIDTH. lra.
Qed.

Lemma ghostTick_dead (g : Ghost) : ghostLive g = false -> ghostTick g = g.
Proof. unfold ghostTick. intros H. rewrite H. reflexivity. Qed.

Lemma ghostTicks_dead (n : nat) (g : Ghost) : ghostLive g = false -> ghostTicks n g = g.
Proof.
  revert g. induction n as [|n IH]; intros g H; [reflexivity|].
  simpl. rewrite ghostTick_dead by exact H. apply IH, H.
Qed.

Lemma skipn_nth_error (t : list Q) (i : nat) (a : Q) :
  nth_error t i = Some a -> skipn i t = a :: skipn (S i) t.
Proof.
  revert i. induction t as [|b t IH]; intros [|i] H; simpl in *; try discriminate.
  - injection H as ->. reflexivity.
  - apply IH, H.
Qed.

Lemma ghost_play_from (k : nat) (g : Ghost) :
  ghostLive g = true -> (index g + k = length (runPositions g))%nat ->
  ghostTrace k g = List.map Some (skipn (index g) (runPositions g)) /\
  ghostLive (ghostTicks k g) = true /\
  index (ghostTicks k g) = length (runPositions g) /\
  runPositions (ghostTicks k g) = runPositions g.
Proof.
  revert g. induction k as [|k IH]; intros g Hlive Hk.
  - simpl. rewrite Nat.add_0_r in Hk. rewrite Hk, skipn_all. auto.
  - assert (Hlt : (index g < length (runPositions g))%nat) by lia.
    destruct (nth_error (runPositions g) (index g)) as [a|] eqn:Ea;
      [| apply nth_error_None in Ea; lia].
    assert (Ht : ghostTick g =
                 {| runPositions := runPositions g; index := S (index g);
                    ghostY := Some a; ghostLive := true |}).
    { unfold ghostTick. rewrite Hlive. simpl.
      destruct (Nat.leb_spec (length (runPositions g)) (index g)); [lia|].
      rewrite Ea. reflexivity. }
    destruct (IH (ghostTick g)) as [T1 [T2 [T3 T4]]];
      [rewrite Ht; reflexivity | rewrite Ht; simpl; lia |].
    rewrite Ht in T1, T2, T3, T4. cbn [index runPositions] in T1, T3, T4.
    cbn [ghostTrace ghostTicks]. rewrite Ht. cbn [ghostLive ghostY].
    rewrite T1, (skipn_nth_error _ _ _ Ea). cbn [List.map]. auto.
Qed.

(** A ghost replays its whole trail, one sample per firing and in order, and
    is still shown after the last sample; the next firing removes it, and
    later firings change nothing. *)
Theorem ghost_replays_trail (t : list Q) :
  ghostTrace (length t) (newGhost t) = List.map Some t /\
  ghostLive (ghostTicks (length t) (newGhost t)) = true /\
  forall n, (length t < n)%nat -> ghostLive (ghostTicks n (newGhost t)) = false.
Proof.
  destruct (ghost_play_from (length t) (newGhost t) eq_refl eq_refl)
    as [T1 [T2 [T3 T4]]].
  simpl in T1, T3, T4. split; [exact T1|]. split; [exact T2|].
  intros n Hn. replace n with (length t + S (n - S (length t)))%nat by lia.
  assert (Hsplit : forall a b g, ghostTicks (a + b) g = ghostTicks b (ghostTicks a g)).
  { induction a as [|a IH]; intros b g; [reflexivity|]. simpl. apply IH. }
  rewrite Hsplit. simpl.
  set (g := ghostTicks (length t) (newGhost t)) in *.
  assert (Hd : ghostLive (ghostTick g) = false).
  { unfold ghostTick. rewrite T2. simpl. rewrite T3, T4, Nat.leb_refl. reflexivity. }
  rewrite ghostTicks_dead by exact Hd. exact Hd.
Qed.


Lemma ghostHandoff_log (l : Z) (w : World) :
  ghostLog (ghostHandoff l w) = ghostLog w \/
  ghostLog (ghostHandoff l w) = ghostLog w ++ [currentRun w].
Proof. unfold ghostHandoff. destruct (_ && _); [right|left]; reflexivity. Qed.

(** Outside a restart, a step never raises lives and never lowers the
    score. *)
Theorem step_lives_score_monotone (w : World) (st : State) (ev : Event) :
  NotRestart ev ->
  let st' := fst (step w st ev) in
  (lives st' <= lives st)%Z /\ (score st <= score st')%Z.
Proof.
  intros Hev st'. subst st'.
  destruct (gameEnd st) eqn:He.
  - rewrite step_ended by assumption. simpl. lia.
  - pose proof (pipeLoop_score_mono (birdY st + newVy st ev) (score st) (activePipes w)) as Hm.
    step_cases w st ev.
    + rewrite step_boundary by assumption. simpl. lia.
    + rewrite (step_hit w st ev sc Hev He Hb Hl). try rewrite Hl in Hm. simpl. lia.
    + rewrite (step_clear w st ev sc ps Hev He Hb Hl). try rewrite Hl in Hm. simpl. lia.
Qed.

(** A step that costs a life puts the bird back at 200 and leaves exactly
    one pipe, built from the next random draw. *)
Theorem life_loss_resets_bird_and_pipes (w : World) (st : State) (ev : Event) :
  NotRestart ev -> gameEnd st = false ->
  let '(st', w') := step w st ev in
  lives st' = (lives st - 1)%Z ->
  birdY st' = 200 /\ activePipes w' = [newPipe (hd (rng w))].
Proof.
  intros Hev He. step_cases w st ev.
  - rewrite step_boundary by assumption. simpl. intros _.
    rewrite resetPipes_pipes, ghostHandoff_rng. split; reflexivity.
  - rewrite (step_hit w st ev sc Hev He Hb Hl). simpl. intros _.
    rewrite resetPipes_pipes, ghostHandoff_rng. split; reflexivity.
  - rewrite (step_clear w st ev sc ps Hev He Hb Hl). simpl. intros H. lia.
Qed.

(** Every step, restart included, spawns at most one ghost, which gets the
    trail as it stood before the step, and never changes the ghosts spawned
    before: a restart discards the trail without spawning a ghost. *)
Theorem step_ghosts_append_only (w : World) (st : State) (ev : Event) :
  let w' := snd (step w st ev) in
  ghostLog w' = ghostLog w \/ ghostLog w' = ghostLog w ++ [currentRun w].
Proof.
  intros w'. subst w'.
  destruct ev as [v|v|]; [| | left; rewrite step_restart; simpl;
                              rewrite resetPipes_ghosts; reflexivity].
  all: destruct (gameEnd st) eqn:He;
    [ left; rewrite step_ended by first [assumption | not_restart]; reflexivity | ].
  all: match goal with |- context [step ?w ?st ?e] =>
         step_cases w st e;
         [ rewrite step_boundary by first [assumption | not_restart]
         | rewrite (step_hit w st e sc ltac:(not_restart) He Hb Hl)
         | rewrite (step_clear w st e sc ps ltac:(not_restart) He Hb Hl) ]
       end; simpl; try rewrite resetPipes_ghosts; try (left; reflexivity);
    apply ghostHandoff_log.
Qed.


(** An obstacle collision is processed at the first colliding pipe of the
    scan: the step costs one life, resets the bird to 200 with velocity 0,
    and keeps the points of the pipes scored earlier in the same scan. *)
Theorem hit_keeps_earlier_points (w : World) (st : State) (ev : Event)
    (pre post : list Pipe) (p : Pipe) :
  NotRestart ev -> gameEnd st = false ->
  let bY := birdY st + newVy st ev in
  outOfBounds bY = false ->
  activePipes w = pre ++ p :: post ->
  Forall (fun q => isColliding bY q = None) pre ->
  isColliding bY p <> None ->
  let st' := fst (step w st ev) in
  lives st' = (lives st - 1)%Z /\
  score st' = (score st + Z.of_nat (length (filter scores pre)))%Z /\
  birdY st' = 200 /\ vy st' = 0.
Proof.
  intros Hev He bY Hb Hw Hpre Hp st'. subst st' bY.
  assert (Hl := pipeLoop_first_hit _ pre post p (score st) Hpre Hp).
  rewrite <- Hw in Hl.
  rewrite (step_hit w st ev _ Hev He Hb Hl). simpl. repeat split; reflexivity.
Qed.

(** With gravity only, a bird that is not moving up keeps falling: a
    gravity step with a non-negative delta that costs no life does not
    raise the bird and leaves the velocity non-negative. *)
Theorem gravity_never_lifts (w : World) (st : State) (v : Q) :
  gameEnd st = false -> 0 <= vy st -> 0 <= v ->
  let st' := fst (step w st (Gravity v)) in
  lives st' = lives st ->
  birdY st <= birdY st' /\ 0 <= vy st'.
Proof.
  intros He Hv0 Hv st'. subst st'.
  assert (Hev : NotRestart (Gravity v)) by not_restart.
  step_cases w st (Gravity v).
  - rewrite step_boundary by assumption. simpl. intros H. lia.
  - rewrite (step_hit w st _ sc Hev He Hb Hl). simpl. intros H. lia.
  - rewrite (step_clear w st _ sc ps Hev He Hb Hl). simpl. intros _. split; lra.
Qed.

Lemma pipeLoop_done_x (y : Q) (ps : list Pipe) :
  forall sc sc' ps', pipeLoop y sc ps = Done sc' ps' ->
  List.map x ps' = List.map x ps.
Proof.
  induction ps as [|p ps IH]; intros sc sc' ps' H; simpl in H.
  - injection H as _ <-. reflexivity.
  - destruct (isColliding y p); [discriminate|].
    destruct (negb (passed p) && cleared p).
    + destruct (pipeLoop y (sc + 1) ps) as [|s q] eqn:E; [discriminate|].
      injection H as _ <-. simpl. rewrite (IH _ _ _ E). reflexivity.
    + destruct (pipeLoop y sc ps) as [|s q] eqn:E; [discriminate|].
      injection H as _ <-. simpl. rewrite (IH _ _ _ E). reflexivity.
Qed.

Lemma movePipes_in (ps : list Pipe) (q : Pipe) :
  In q (movePipes ps) -> exists q0, In q0 ps /\ x q = x q0 - PIPE_SPEED.
Proof.
  rewrite movePipes_map_filter. intros H. apply filter_In in H as [H _].
  apply in_map_iff in H as [q0 [<- Hq0]]. exists q0. split; [exact Hq0 | reflexivity].
Qed.

Lemma spaced_single (p : Pipe) : pipesSpaced [p].
Proof. repeat constructor. Qed.

Lemma movePipes_spaced (ps : list Pipe) : pipesSpaced ps -> pipesSpaced (movePipes ps).
Proof.
  unfold pipesSpaced. induction ps as [|p ps IH]; intros H; [constructor|].
  cbn [List.map] in H. inversion H as [|a l Hs Hf]; subst.
  rewrite movePipes_map_filter. cbn [List.map filter]. rewrite <- movePipes_map_filter.
  destruct (Qltb 0 (x (set_x (x p - PIPE_SPEED) p) + Constants.PIPE_WIDTH));
    [|apply IH; exact Hs].
  cbn [List.map]. constructor; [apply IH; exact Hs|].
  apply Forall_forall. intros a Ha. apply in_map_iff in Ha as [q [<- Hq]].
  apply movePipes_in in Hq as [q0 [Hq0 Hx]].
  rewrite Forall_forall in Hf. specialize (Hf (x q0) (in_map x _ _ Hq0)).
  unfold spacedX in *. rewrite Hx. simpl. lra.
Qed.

Lemma SS_app_single (l : list Q) (b : Q) :
  StronglySorted spacedX l -> Forall (fun a => spacedX a b) l ->
  StronglySorted spacedX (l ++ [b]).
Proof.
  induction l as [|a l IH]; intros Hs Hf; simpl.
  - repeat constructor.
  - inversion Hs as [|? ? Hs' Hfa]; subst. inversion Hf as [|? ? Hab Hf']; subst.
    constructor; [apply IH; assumption|].
    apply Forall_app. split; [exact Hfa | constructor; [exact Hab | constructor]].
Qed.

Lemma SS_app_inv (l1 l2 : list Q) :
  StronglySorted spacedX (l1 ++ l2) ->
  forall a b, In a l1 -> In b l2 -> spacedX a b.
Proof.
  induction l1 as [|c l1 IH]; intros H a b Ha Hb; [destruct Ha|].
  simpl in H. inversion H as [|? ? Hs Hf]; subst.
  destruct Ha as [<- | Ha].
  - rewrite Forall_forall in Hf. apply Hf, in_or_app. right. exact Hb.
  - exact (IH Hs a b Ha Hb).
Qed.

Lemma last_pipe_none (ps : list Pipe) : last_pipe ps = None -> ps = [].
Proof.
  unfold last_pipe. destruct (rev ps) eqn:E; [|discriminate].
  intros _. rewrite <- (rev_involutive ps), E. reflexivity.
Qed.

Lemma advancePipes_spaced (l : Z) (w : World) :
  pipesSpaced (activePipes w) -> pipesSpaced (activePipes (advancePipes l w)).
Proof.
  intros H. unfold advancePipes.
  destruct (l <=? 0)%Z; [exact H|].
  pose proof (movePipes_spaced _ H) as Hm.
  unfold set_pipes, createPipe; cbn [activePipes].
  destruct (last_pipe (movePipes (activePipes w))) as [lp|] eqn:L.
  - destruct (Qltb (x lp) SPAWN_THRESHOLD) eqn:T; cbn [activePipes]; [|exact Hm].
    apply Qltb_true in T.
    destruct (last_pipe_split _ _ L) as [pre Hpre].
    unfold pipesSpaced in *. rewrite List.map_app. simpl.
    apply SS_app_single; [exact Hm|].
    apply Forall_forall. intros a Ha.
    assert (Hlp : a = x lp \/ spacedX a (x lp)).
    { rewrite Hpre, List.map_app in Ha, Hm. apply in_app_or in Ha as [Ha | [<- | []]].
      - right. apply (SS_app_inv _ _ Hm a (x lp) Ha). simpl. left. reflexivity.
      - left. reflexivity. }
    unfold spacedX, SPACING, SPAWN_THRESHOLD in *. unfold Viewport.CANVAS_WIDTH in *.
    destruct Hlp as [-> | Hlp]; lra.
  - apply last_pipe_none in L. rewrite L. apply spaced_single.
Qed.

Lemma advancePipes_nonempty (l : Z) (w : World) :
  activePipes w <> [] -> activePipes (advancePipes l w) <> [].
Proof.
  intros H. destruct (Z.ltb_spec 0 l) as [Hl|Hl].
  - destruct (advancePipes_spawn_rule l w Hl) as [_ [lp [Hlp _]]].
    destruct (last_pipe_split _ _ Hlp) as [pre ->]. destruct pre; discriminate.
  - unfold advancePipes. destruct (Z.leb_spec l 0); [exact H | lia].
Qed.

(** In every reachable world the obstacle set is non-empty and its pipes,
    in array order, lie left to right with more than [SPACING] (180) between
    consecutive ones: the spawn threshold bounds their number and spacing. *)
Theorem reachable_pipes_layout :
  forall (st : State) (w : World), reachable st w ->
  activePipes w <> [] /\ pipesSpaced (activePipes w).
Proof.
  intros st0 w0 H. induction H as [r | st w ev Hr IH | st w l Hr IH].
  - split; [discriminate | apply spaced_single].
  - destruct IH as [Hne Hsp].
    destruct ev as [v | v | ];
      [ | | rewrite step_restart; simpl; rewrite resetPipes_pipes;
            split; [discriminate | apply spaced_single] ].
    all: destruct (gameEnd st) eqn:He;
      [ rewrite step_ended by first [assumption | not_restart]; split; assumption | ].
    all: match goal with |- context [step ?w ?st ?e] =>
           step_cases w st e;
           [ rewrite step_boundary by first [assumption | not_restart]
           | rewrite (step_hit w st e sc ltac:(not_restart) He Hb Hl)
           | rewrite (step_clear w st e sc ps ltac:(not_restart) He Hb Hl) ]
         end; cbn [fst snd].
    all: try (simpl; rewrite resetPipes_pipes; split; [discriminate | apply spaced_single]).
    all: simpl; pose proof (pipeLoop_done_x _ _ _ _ _ Hl) as Hx;
      unfold pipesSpaced; rewrite Hx; split; [|exact Hsp].
    all: intros E; apply Hne; apply (f_equal (@length Q)) in Hx;
      rewrite E in Hx; rewrite !length_map in Hx; simpl in Hx;
      destruct (activePipes w); [reflexivity | discriminate].
  - destruct IH as [Hne Hsp]. split.
    + apply advancePipes_nonempty, Hne.
    + apply advancePipes_spaced, Hsp.
Qed.

Lemma spaced_overlap_at_most_one (ps : list Pipe) :
  pipesSpaced ps -> (length (filter overlapsBird ps) <= 1)%nat.
Proof.
  unfold pipesSpaced. induction ps as [|p ps IH]; intros H; [simpl; lia|].
  cbn [List.map] in H. inversion H as [|a l Hs Hf]; subst.
  cbn [filter]. destruct (overlapsBird p) eqn:Op; [|apply IH, Hs].
  assert (Hp : Viewport.CANVAS_WIDTH * 0.3 < x p + Constants.PIPE_WIDTH).
  { unfold overlapsBird in Op. apply andb_true_iff in Op as [_ Op].
    apply Qltb_true in Op. exact Op. }
  assert (Hnil : filter overlapsBird ps = []).
  { rewrite Forall_forall in Hf.
    assert (Hq : forall q, In q ps -> overlapsBird q = false).
    { intros q Hq. specialize (Hf (x q) (in_map x _ _ Hq)).
      unfold overlapsBird. apply andb_false_iff. left. apply Qltb_false.
      unfold spacedX, SPACING, SPAWN_THRESHOLD, Constants.PIPE_WIDTH,
        Birb.WIDTH, Viewport.CANVAS_WIDTH in *. lra. }
    clear -Hq. induction ps as [|q ps IHq]; [reflexivity|].
    cbn [filter]. rewrite (Hq q (or_introl eq_refl)).
    apply IHq. intros r Hr. apply Hq. right. exact Hr. }
  rewrite Hnil. simpl. lia.
Qed.

(** Consequently, in every reachable world at most one pipe overlaps the
    bird horizontally, so the collision scan meets at most one candidate. *)
Theorem reachable_one_pipe_at_bird :
  forall (st : State) (w : World), reachable st w ->
  (length (filter overlapsBird (activePipes w)) <= 1)%nat.
Proof.
  intros st w H. apply spaced_overlap_at_most_one.
  exact (proj2 (reachable_pipes_layout st w H)).
Qed.

(** ** Witnesses of the further properties *)

Lemma newPipe_gap_in_margins_witness :
  0 <= 0.5 /\ 0.5 < 1 /\ 20 <= gapY (newPipe 0.5).
Proof.
  assert (H0 : 0 <= 0.5) by (vm_compute; discriminate).
  assert (H1 : 0.5 < 1) by reflexivity.
  split; [exact H0|]. split; [exact H1|].
  exact (proj1 (newPipe_gap_in_margins 0.5 H0 H1)).
Defined.

Lemma advancePipes_spawn_rule_witness :
  (0 < 3)%Z /\ (length (activePipes (advancePipes 3 demoWorld)) <= 2)%nat.
Proof.
  assert (H : (0 < 3)%Z) by reflexivity.
  split; [exact H|]. exact (proj1 (advancePipes_spawn_rule 3 demoWorld H)).
Defined.

Lemma step_lives_score_monotone_witness :
  NotRestart flapEvent /\
  (lives (fst (step demoWorld nearTop flapEvent)) <= lives nearTop)%Z.
Proof.
  assert (H : NotRestart flapEvent) by not_restart.
  split; [exact H|]. exact (proj1 (step_lives_score_monotone demoWorld nearTop flapEvent H)).
Defined.

Lemma life_loss_resets_bird_and_pipes_witness :
  NotRestart flapEvent /\ gameEnd nearTop = false /\
  activePipes (snd (step demoWorld nearTop flapEvent)) = [newPipe 0.5].
Proof.
  split; [not_restart|]. split; [reflexivity|].
  pose proof (life_loss_resets_bird_and_pipes demoWorld nearTop flapEvent
                ltac:(not_restart) eq_refl) as H.
  vm_compute in H. destruct (H eq_refl) as [_ P]. vm_compute. exact P.
Defined.

Lemma hit_keeps_earlier_points_witness :
  NotRestart gravityEvent /\ gameEnd initialBirdState = false /\
  score (fst (step hitWorld initialBirdState gravityEvent)) = 1%Z.
Proof.
  split; [not_restart|]. split; [reflexivity|].
  pose proof (hit_keeps_earlier_points hitWorld initialBirdState gravityEvent
                [behindPipe] [] lowGapPipe ltac:(not_restart) eq_refl eq_refl eq_refl
                ltac:(repeat constructor) ltac:(vm_compute; discriminate)) as H.
  destruct H as [_ [S _]]. rewrite S. reflexivity.
Defined.

Lemma gravity_never_lifts_witness :
  gameEnd initialBirdState = false /\ 0 <= vy initialBirdState /\ 0 <= 2 /\
  birdY initialBirdState <= birdY (fst (step demoWorld initialBirdState (Gravity 2))).
Proof.
  assert (H0 : 0 <= vy initialBirdState) by (vm_compute; discriminate).
  assert (H1 : 0 <= 2) by (vm_compute; discriminate).
  split; [reflexivity|]. split; [exact H0|]. split; [exact H1|].
  exact (proj1 (gravity_never_lifts demoWorld initialBirdState 2 eq_refl H0 H1 eq_refl)).
Defined.

Lemma reachable_pipes_layout_witness :
  let w := advancePipes 3 (snd (step demoWorld initialBirdState gravityEvent)) in
  reachable (fst (step demoWorld initialBirdState gravityEvent)) w /\
  activePipes w <> [].
Proof.
  assert (R := reach_advance _ _ 3 (reach_step _ _ gravityEvent (reach_init (constStream 0.5)))).
  split; [exact R | exact (proj1 (reachable_pipes_layout _ _ R))].
Defined.

Lemma reachable_one_pipe_at_bird_witness :
  let w := advancePipes 3 (snd (step demoWorld initialBirdState flapEvent)) in
  reachable (fst (step demoWorld initialBirdState flapEvent)) w /\
  (length (filter overlapsBird (activePipes w)) <= 1)%nat.
Proof.
  assert (R := reach_advance _ _ 3 (reach_step _ _ flapEvent (reach_init (constStream 0.5)))).
  split; [exact R | exact (reachable_one_pipe_at_bird _ _ R)].
Defined.
